(** * EOP_Sockets: the frame transport of [comm/socks.py]

    A shallow embedding of the socket helpers of [comm/socks.py] and the
    properties of the frame protocol built from them: the size
    announcement, the chunked body transfer, the byte-exact reception
    and the acknowledgment handshake.

    Python values are modelled as follows:
    - [bytes] objects are lists of [Byte.byte];
    - [str] objects are lists of Unicode code points ([N]);
    - [int] objects are [Z];
    - a socket is any type implementing the [Socket] interface below
      ([recv], [send] and the history of calls made on it);
    - the file system is a finite map from path names to file contents;
    - the three [while] loops take a fuel argument; a function that
      blocks forever in [recv] yields [Blocked]. *)

From Stdlib Require Import ZArith NArith Lia.
From Stdlib.Strings Require Import Ascii String Byte.
From Stdlib Require Import Decimal DecimalString DecimalZ.
From stdpp Require Import base option list gmap.

Local Open Scope Z_scope.

(** ** Python primitives *)

Module Py.

Abbreviation bytes := (list byte).
Abbreviation str := (list N).

(** A Python string literal. *)
Definition lit (s : string) : str := N_of_ascii <$> list_ascii_of_string s.

(** [str(n)] for an [int]: decimal digits, with a leading minus sign for
    negative numbers. *)
Definition str_of_int (n : Z) : str := lit (NilZero.string_of_int (Z.to_int n)).

(** Reading of a decimal control message: the integer whose [str] it is. *)
Definition ascii_of_code (c : N) : option ascii :=
  if (c <? 256)%N then Some (ascii_of_N c) else None.

Definition decimal_value (s : str) : option Z :=
  l ← mapM ascii_of_code s;
  d ← NilZero.int_of_string (string_of_list_ascii l);
  Some (Z.of_int d).

(** [s.encode('ascii')]: fails on the first code point above 127. *)
Fixpoint encode_ascii (s : str) : option bytes :=
  match s with
  | [] => Some []
  | c :: s' =>
      if (c <? 128)%N then
        match Byte.of_N c, encode_ascii s' with
        | Some b, Some bs => Some (b :: bs)
        | _, _ => None
        end
      else None
  end.

(** [b.decode('utf-8')], strict: overlong forms, surrogates, code points
    above U+10FFFF and truncated sequences are rejected. *)
Definition in_range (lo hi n : N) : bool := ((lo <=? n) && (n <=? hi))%N.

Definition is_cont (n : N) : bool := in_range 128 191 n.

Definition cont_bits (n : N) : N := N.land n 63.

Fixpoint decode_utf8 (bs : bytes) : option str :=
  match bs with
  | [] => Some []
  | b0 :: r0 =>
      let n0 := Byte.to_N b0 in
      if (n0 <? 128)%N then cons n0 <$> decode_utf8 r0
      else if in_range 194 223 n0 then
        match r0 with
        | b1 :: r1 =>
            let n1 := Byte.to_N b1 in
            if is_cont n1 then
              cons (N.lor (N.shiftl (N.land n0 31) 6) (cont_bits n1))
                <$> decode_utf8 r1
            else None
        | _ => None
        end
      else if in_range 224 239 n0 then
        match r0 with
        | b1 :: b2 :: r2 =>
            let n1 := Byte.to_N b1 in
            let n2 := Byte.to_N b2 in
            let lo := if (n0 =? 224)%N then 160%N else 128%N in
            let hi := if (n0 =? 237)%N then 159%N else 191%N in
            if in_range lo hi n1 && is_cont n2 then
              cons (N.lor (N.shiftl (N.land n0 15) 12)
                      (N.lor (N.shiftl (cont_bits n1) 6) (cont_bits n2)))
                <$> decode_utf8 r2
            else None
        | _ => None
        end
      else if in_range 240 244 n0 then
        match r0 with
        | b1 :: b2 :: b3 :: r3 =>
            let n1 := Byte.to_N b1 in
            let n2 := Byte.to_N b2 in
            let n3 := Byte.to_N b3 in
            let lo := if (n0 =? 240)%N then 144%N else 128%N in
            let hi := if (n0 =? 244)%N then 143%N else 191%N in
            if in_range lo hi n1 && is_cont n2 && is_cont n3 then
              cons (N.lor (N.shiftl (N.land n0 7) 18)
                      (N.lor (N.shiftl (cont_bits n1) 12)
                         (N.lor (N.shiftl (cont_bits n2) 6) (cont_bits n3))))
                <$> decode_utf8 r3
            else None
        | _ => None
        end
      else None
  end.

(** [s.replace("\n", "")]. *)
Definition newline : N := 10%N.

Definition remove_newlines (s : str) : str :=
  filter (λ c, c ≠ newline) s.

(** [f.readline(size)] on a binary file whose unread part is [data]: the
    bytes up to and including the first line feed, at most [size] of them
    when [size] is not negative.  Returns the line and the unread rest. *)
Fixpoint readline_upto (limit : nat) (data : bytes) : bytes * bytes :=
  match limit, data with
  | S k, b :: rest =>
      if Byte.eqb b x0a then ([b], rest)
      else let '(line, rest') := readline_upto k rest in (b :: line, rest')
  | _, _ => ([], data)
  end.

Definition readline (size : Z) (data : bytes) : bytes * bytes :=
  readline_upto (if size <? 0 then length data else Z.to_nat size) data.

End Py.

Import Py.

(** ** Outcomes of a call *)

Inductive exn :=
  | UnicodeDecodeError
  | UnicodeEncodeError
  | FileNotFoundError
  | OSError.

(** [Done a]: the call returns [a].  [Raised e]: it raises [e].
    [Blocked]: it is stuck for ever in a [recv] that never returns.
    [OutOfFuel]: the loop was still running when the fuel ran out. *)
Inductive result (A : Type) :=
  | Done (a : A)
  | Raised (e : exn)
  | Blocked
  | OutOfFuel.

Arguments Done {A} a.
Arguments Raised {A} e.
Arguments Blocked {A}.
Arguments OutOfFuel {A}.

#[global] Instance result_ret : MRet result := @Done.

#[global] Instance result_bind : MBind result := λ A B f m,
  match m with
  | Done a => f a
  | Raised e => Raised e
  | Blocked => Blocked
  | OutOfFuel => OutOfFuel
  end.

(** An optional value, raising [e] when it is absent. *)
Definition or_raise {A} (e : exn) (o : option A) : result A :=
  match o with
  | Some a => Done a
  | None => Raised e
  end.

(** ** Sockets *)

(** The calls made on a socket object, oldest first. *)
Inductive call :=
  | CallSend (buf : bytes)
  | CallRecv (bufsize : Z).

(** A connected, blocking stream socket.  [recv s n] is [None] when the
    call never returns; otherwise it yields the bytes read, never more
    than [n], and the socket afterwards.  [send] hands the whole buffer
    to the transport (the source ignores its return value). *)
Class Socket (Sock : Type) := {
  recv : Sock → Z → option (bytes * Sock);
  send : Sock → bytes → Sock;
  calls : Sock → list call;
  recv_length s n d s' :
    recv s n = Some (d, s') → 0 ≤ n → Z.of_nat (length d) ≤ n;
  recv_calls s n d s' :
    recv s n = Some (d, s') → calls s' = calls s ++ [CallRecv n];
  send_calls s b : calls (send s b) = calls s ++ [CallSend b]
}.


(** [sock.recv(n)] as a step of a computation. *)
Definition sock_recv `{Socket Sock} (sock : Sock) (n : Z)
    : result (bytes * Sock) :=
  match recv sock n with
  | Some r => Done r
  | None => Blocked
  end.

(** *** A concrete endpoint

    [inbox] holds the data on its way to this endpoint, one entry per
    segment, in arrival order.  A [recv] takes its bytes from the first
    segment that is not empty.  Once the inbox is drained, [recv] returns
    [b''] when the peer has closed the connection and blocks otherwise.
    The size passed to [recv] is never negative in [comm/socks.py]. *)
Record wire := Wire {
  inbox : list bytes;
  peer_closed : bool;
  wire_calls : list call
}.

Fixpoint wire_take (n : nat) (segs : list bytes) : bytes * list bytes :=
  match segs with
  | [] => ([], [])
  | seg :: rest =>
      match seg with
      | [] => wire_take n rest
      | _ :: _ =>
          (take n seg,
           match drop n seg with
           | [] => rest
           | more => more :: rest
           end)
      end
  end.

Definition wire_recv (w : wire) (n : Z) : option (bytes * wire) :=
  let '(d, segs) := wire_take (Z.to_nat n) (inbox w) in
  match d, negb (peer_closed w) && (0 <? n) with
  | [], true => None
  | _, _ => Some (d, Wire segs (peer_closed w) (wire_calls w ++ [CallRecv n]))
  end.

Definition wire_send (w : wire) (b : bytes) : wire :=
  Wire (inbox w) (peer_closed w) (wire_calls w ++ [CallSend b]).

(** ** Creating sockets

    The socket-level calls a function makes, oldest first, and the state
    of the socket object it returns. *)
Inductive syscall :=
  | SysSocket
  | SysGethostname
  | SysGethostbyname (name : str)
  | SysBind (address : str) (port : Z)
  | SysConnect (address : str) (port : Z)
  | SysListen
  | SysAccept.

Inductive sock_state :=
  | Unconnected
  | Bound (address : str) (port : Z)
  | Listening (address : str) (port : Z)
  | Connected (address : str) (port : Z).

Record os_socket := OsSocket {
  os_state : sock_state;
  os_calls : list syscall
}.

(** What the host answers: its name, the resolver, and which addresses
    can be bound or reached. *)
Record host := Host {
  gethostname : str;
  gethostbyname : str → option str;
  can_bind : str → Z → bool;
  can_connect : str → Z → bool
}.

(** ** File system *)

Abbreviation filesystem := (gmap str bytes).


(** * The functions of [comm/socks.py] *)

Section socks.
Context `{Socket Sock}.

Definition receive_bytes_to_string (client_sock : Sock) : result (str * Sock) :=
  '(byte_msg, client_sock) ← sock_recv client_sock 1024;
  str_msg ← or_raise UnicodeDecodeError (decode_utf8 byte_msg);
  mret (remove_newlines str_msg, client_sock).

Definition send_total_frame_nbr (client_socket : Sock) (frame_nbr : Z) : result Sock :=
  buf ← or_raise UnicodeEncodeError (encode_ascii (str_of_int frame_nbr));
  mret (send client_socket buf).

Definition send_increment_nbr (client_socket : Sock) (increment : Z) : result Sock :=
  buf ← or_raise UnicodeEncodeError (encode_ascii (str_of_int increment));
  mret (send client_socket buf).


(** The loop of [send_frame]: [buf] is the line just read and [filedesc]
    the unread part of the file. *)
Fixpoint send_frame_loop (fuel : nat) (client_socket : Sock)
    (buf filedesc : bytes) : result Sock :=
  match buf with
  | [] => Done client_socket
  | _ :: _ =>
      match fuel with
      | O => OutOfFuel
      | S fuel' =>
          let client_socket := send client_socket buf in
          let '(buf, filedesc) := readline 1024 filedesc in
          send_frame_loop fuel' client_socket buf filedesc
      end
  end.

(** [sleep] only delays the transmission. *)
Definition send_frame (fuel : nat) (client_socket : Sock) (frame_loc : str)
    (sleep : Z) (fs : filesystem) : result Sock :=
  filedesc ← or_raise FileNotFoundError (fs !! frame_loc);
  let '(buf, filedesc) := readline 1024 filedesc in
  send_frame_loop fuel client_socket buf filedesc.

(** The state of the loop of [receive_frame]; [rf_img] is what has been
    written to the open file [img]. *)
Record rf_state := RfState {
  rf_sock : Sock;
  rf_img_size : Z;
  rf_img : bytes
}.

(** One run of the loop body. *)
Definition receive_frame_body (frame_size : Z) (st : rf_state) : result rf_state :=
  let remain := frame_size - rf_img_size st in
  '(data, client_sock) ←
    (if remain <? 1024 then sock_recv (rf_sock st) remain
     else sock_recv (rf_sock st) 1024);
  mret (RfState client_sock
          (rf_img_size st + Z.of_nat (length data))
          (rf_img st ++ data)).

Fixpoint receive_frame_loop (fuel : nat) (frame_size : Z) (st : rf_state)
    : result rf_state :=
  if rf_img_size st <? frame_size then
    match fuel with
    | O => OutOfFuel
    | S fuel' =>
        st ← receive_frame_body frame_size st;
        receive_frame_loop fuel' frame_size st
    end
  else Done st.

Definition frame_filename (save_loc : str) (frame : Z) : str :=
  save_loc ++ lit "frame" ++ str_of_int frame ++ lit ".jpg".

(** Opening the file with mode ['wb'] creates it empty; leaving the
    [with] block stores what was written. *)
Definition receive_frame (fuel : nat) (client_sock : Sock) (frame frame_size : Z)
    (save_loc : str) (fs : filesystem) : result (Sock * filesystem) :=
  let img_size := 0 in
  let filename := frame_filename save_loc frame in
  let fs := <[filename := []]> fs in
  st ← receive_frame_loop fuel frame_size (RfState client_sock img_size []);
  mret (rf_sock st, <[filename := rf_img st]> fs).

Definition ack_text (frame : Z) : str := lit "OK FRAME " ++ str_of_int frame.

(** [client_socket.recv(1024).decode('UTF-8')]. *)
Definition recv_msg (client_socket : Sock) : result (str * Sock) :=
  '(byte_msg, client_socket) ← sock_recv client_socket 1024;
  msg ← or_raise UnicodeDecodeError (decode_utf8 byte_msg);
  mret (msg, client_socket).

Fixpoint waiting_for_ack_loop (fuel : nat) (client_socket : Sock) (msg : str)
    (frame : Z) : result Sock :=
  if bool_decide (msg ≠ ack_text frame) then
    match fuel with
    | O => OutOfFuel
    | S fuel' =>
        '(msg, client_socket) ← recv_msg client_socket;
        waiting_for_ack_loop fuel' client_socket msg frame
    end
  else Done client_socket.

Definition waiting_for_ack (fuel : nat) (client_socket : Sock) (frame : Z)
    : result Sock :=
  '(msg, client_socket) ← recv_msg client_socket;
  waiting_for_ack_loop fuel client_socket msg frame.


End socks.

Arguments ack_text : simpl never.
Arguments frame_filename : simpl never.
Arguments str_of_int : simpl never.


Definition init_server_socket (h : host) (address : option str)
    (port : option Z) : result os_socket :=
  let port := default 5000 port in
  let server_socket := OsSocket Unconnected [SysSocket] in
  '(address, server_socket) ←
    match address with
    | None =>
        let name := gethostname h in
        address ← or_raise OSError (gethostbyname h name);
        mret (address,
              OsSocket Unconnected
                (os_calls server_socket
                   ++ [SysGethostname; SysGethostbyname name]))
    | Some address => mret (address, server_socket)
    end;
  if can_bind h address port then
    mret (OsSocket (Bound address port)
            (os_calls server_socket ++ [SysBind address port]))
  else Raised OSError.

(** * Runs of the loops

    The relations below describe what the loops above do step by step;
    the theorems are stated with them. *)

Section runs.
Context `{Socket Sock}.

(** The states the loop of [receive_frame] goes through: each step is
    one run of the body, taken while the loop condition holds. *)
Inductive rf_reach (frame_size : Z) (st0 : rf_state) : rf_state → Prop :=
  | rf_reach_start : rf_reach frame_size st0 st0
  | rf_reach_step st st' :
      rf_reach frame_size st0 st →
      rf_img_size st < frame_size →
      receive_frame_body frame_size st = Done st' →
      rf_reach frame_size st0 st'.

(** [reads s msgs s']: successive [recv(1024).decode('UTF-8')] on [s]
    return the messages [msgs] and leave the socket as [s']. *)
Inductive reads : Sock → list str → Sock → Prop :=
  | reads_nil s : reads s [] s
  | reads_cons s msg s1 msgs s' :
      recv_msg s = Done (msg, s1) →
      reads s1 msgs s' →
      reads s (msg :: msgs) s'.

End runs.

(** [frame_reads frame_size img_size reqs chunks]: starting with
    [img_size] bytes received, the loop of [receive_frame] asks for
    [reqs] and is given [chunks], one per iteration, and then stops. *)
Fixpoint frame_reads (frame_size img_size : Z) (reqs : list Z)
    (chunks : list bytes) : Prop :=
  match reqs, chunks with
  | [], [] => ¬ img_size < frame_size
  | n :: reqs, data :: chunks =>
      img_size < frame_size ∧
      n = (if frame_size - img_size <? 1024
           then frame_size - img_size else 1024) ∧
      Z.of_nat (length data) ≤ n ∧
      frame_reads frame_size (img_size + Z.of_nat (length data)) reqs chunks
  | _, _ => False
  end.

(** The size the loop body asks for. *)
Definition request (frame_size img_size : Z) : Z :=
  if frame_size - img_size <? 1024 then frame_size - img_size else 1024.


(** Text made of ASCII characters only. *)
Definition is_ascii (s : str) : Prop := Forall (λ c, (c < 128)%N) s.



(** A socket that stands for one accepted connection. *)
Definition accepted_connection (sock : os_socket) : Prop :=
  (∃ address port, os_state sock = Connected address port) ∧
  SysAccept ∈ os_calls sock.

(** Sample values for the examples. *)
Module Sample.

Definition frame_loc : str := lit "capture/frame7.jpg".
Definition save_loc : str := lit "save/".

(** The bytes of [A\nBC]. *)
Definition body : bytes := [x41; x0a; x42; x43].

Definition fs : filesystem := {[ frame_loc := body ]}.

(** An endpoint with nothing to read, whose peer is still there. *)
Definition idle : wire := Wire [] false [].

(** An endpoint whose peer has gone: every [recv] returns [b'']. *)
Definition hung_up : wire := Wire [] true [].

(** The bytes of [OK FRAME 7]. *)
Definition ack7 : bytes := [x4f; x4b; x20; x46; x52; x41; x4d; x45; x20; x37].

(** An endpoint that is about to receive the acknowledgment of frame 7. *)
Definition acked : wire := Wire [ack7] false [].

(** An endpoint about to receive [body] in two segments, then more. *)
Definition incoming : wire := Wire [[x41; x0a; x42]; [x43; x44]] false [].

Definition cam : host := {|
  gethostname := lit "cam";
  gethostbyname name :=
    if bool_decide (name = lit "cam") then Some (lit "10.0.0.5") else None;
  can_bind _ _ := true;
  can_connect _ _ := true
|}.

End Sample.

(** The endpoint [wire] is a socket. *)
Lemma wire_take_spec (n : nat) (segs : list bytes) :
  let '(d, segs') := wire_take n segs in
  d ++ concat segs' = concat segs ∧
  (length d ≤ n)%nat ∧
  (n ≠ O → concat segs ≠ [] → d ≠ []).
Proof.
  induction segs as [|seg rest IH]; cbn.
  - split_and!; [done | lia | done].
  - destruct seg as [|b seg].
    + destruct (wire_take n rest) as [d segs']. cbn. done.
    + split_and!.
      * rewrite <- (take_drop n (b :: seg)) at 3.
        destruct (drop n (b :: seg)) eqn:Hd; cbn;
          by rewrite ?app_nil_r, <- ?app_assoc.
      * rewrite length_take. lia.
      * intros Hn _. destruct n; done.
Qed.

Lemma wire_recv_length (w : wire) (n : Z) (d : bytes) (w' : wire) :
  wire_recv w n = Some (d, w') → 0 ≤ n → Z.of_nat (length d) ≤ n.
Proof.
  unfold wire_recv. intros Hr Hn.
  pose proof (wire_take_spec (Z.to_nat n) (inbox w)) as Ht.
  destruct (wire_take (Z.to_nat n) (inbox w)) as [d0 segs].
  destruct Ht as (_ & Hlen & _).
  assert (d = d0) as ->; [|lia].
  destruct d0; [destruct (negb _ && _)|]; by simplify_eq.
Qed.

Lemma wire_recv_calls (w : wire) (n : Z) (d : bytes) (w' : wire) :
  wire_recv w n = Some (d, w') → wire_calls w' = wire_calls w ++ [CallRecv n].
Proof.
  unfold wire_recv. intros Hr.
  destruct (wire_take (Z.to_nat n) (inbox w)) as [d0 segs].
  destruct d0; [destruct (negb _ && _)|]; by simplify_eq.
Qed.

Lemma wire_send_calls (w : wire) (b : bytes) :
  wire_calls (wire_send w b) = wire_calls w ++ [CallSend b].
Proof. done. Qed.

#[global] Instance wire_socket : Socket wire := {|
  recv := wire_recv;
  send := wire_send;
  calls := wire_calls;
  recv_length := wire_recv_length;
  recv_calls := wire_recv_calls;
  send_calls := wire_send_calls
|}.

(** * Locating the folders

    [init_eopsock_environ_folder] looks at the file name of the module
    that called it and at the process environment.  Both are inputs
    here: [caller_module_file] is [None] when [inspect.getmodule] finds
    no module for the calling frame. *)

Inductive env_exn :=
  | KeyError (key : str)
  | AttributeError.

(** What the function returns: one path for the client, two for any
    other caller. *)
Inductive folders :=
  | CaptureLoc (capture_loc : str)
  | SaveEopLoc (save_loc eop_loc : str).

Definition slash : N := 47%N.

Definition startswith_sep (p : str) : bool :=
  match p with
  | c :: _ => bool_decide (c = slash)
  | [] => false
  end.

Definition endswith_sep (p : str) : bool :=
  match last p with
  | Some c => bool_decide (c = slash)
  | None => false
  end.

(** [os.path.join(a, b)] on POSIX. *)
Definition os_path_join (a b : str) : str :=
  if startswith_sep b then b
  else if bool_decide (a = []) || endswith_sep a then a ++ b
  else a ++ lit "/" ++ b.

(** [os.environ[key]]. *)
Definition environ_get (environ : gmap str str) (key : str) : env_exn + str :=
  match environ !! key with
  | Some value => inr value
  | None => inl (KeyError key)
  end.

Definition init_eopsock_environ_folder (caller_module_file : option str)
    (environ : gmap str str) (capture_loc : option str) : env_exn + folders :=
  match caller_module_file with
  | None => inl AttributeError
  | Some caller_filename =>
      if bool_decide (caller_filename = lit "main_client.py") then
        match environ_get environ (lit "EOP_SOCKET_MAIN_FOLDER") with
        | inl e => inl e
        | inr main_folder =>
            let capture_loc := os_path_join main_folder (lit "client/capture/") in
            inr (CaptureLoc capture_loc)
        end
      else
        match environ_get environ (lit "EOP_SOCKET_SAVE_FOLDER") with
        | inl e => inl e
        | inr save_loc =>
            match environ_get environ (lit "EOP_SOCKET_EOP_FOLDER") with
            | inl e => inl e
            | inr eop_loc => inr (SaveEopLoc save_loc eop_loc)
            end
        end
  end.

(** Text without a line feed. *)
Definition no_newline (s : str) : Prop := Forall (λ c, c ≠ newline) s.

(** A chunk read by [readline(1024)]: not empty, at most 1024 bytes, and
    with no line feed before its last byte. *)
Definition line_chunk (c : bytes) : Prop :=
  c ≠ [] ∧ (length c ≤ 1024)%nat ∧
  ∀ i, (S i < length c)%nat → c !! i ≠ Some x0a.

(** A chunk after which [readline(1024)] stops although the file goes
    on: it ends with a line feed or is 1024 bytes long. *)
Definition full_chunk (c : bytes) : Prop :=
  last c = Some x0a ∨ length c = 1024%nat.

(** * Properties of the primitives *)

Example str_of_int_0 : str_of_int 0 = lit "0".
Proof. reflexivity. Qed.

Example str_of_int_neg : str_of_int (-42) = lit "-42".
Proof. reflexivity. Qed.

Example decode_e_acute : decode_utf8 [xc3; xa9; x0a] = Some [233%N; 10%N].
Proof. reflexivity. Qed.

Example decode_overlong : decode_utf8 [xc0; x80] = None.
Proof. reflexivity. Qed.

Example readline_ex :
  readline 1024 [x41; x0a; x42] = ([x41; x0a], [x42]).
Proof. reflexivity. Qed.

(** ** Decimal rendering *)

Lemma mapM_ascii_of_code_lit (s : string) :
  mapM ascii_of_code (lit s) = Some (list_ascii_of_string s).
Proof.
  unfold lit. induction s as [|a s IH]; [reflexivity|].
  cbn [list_ascii_of_string fmap list_fmap mapM].
  rewrite IH. unfold ascii_of_code.
  pose proof (N_ascii_bounded a) as Hb.
  destruct (N.ltb_spec (N_of_ascii a) 256) as [_|]; [|lia].
  by rewrite ascii_N_embedding.
Qed.

Lemma to_int_not_nil (n : Z) :
  Z.to_int n ≠ Decimal.Pos Nil ∧ Z.to_int n ≠ Decimal.Neg Nil.
Proof.
  destruct n as [|p|p]; cbn; split; try discriminate;
    intros [= Hp]; revert Hp; apply DecimalPos.Unsigned.to_uint_nonnil.
Qed.

Lemma decimal_value_str_of_int (n : Z) :
  decimal_value (str_of_int n) = Some n.
Proof.
  unfold decimal_value, str_of_int.
  rewrite mapM_ascii_of_code_lit. cbn.
  rewrite string_of_list_ascii_of_string.
  destruct (to_int_not_nil n) as [Hp Hn].
  rewrite NilZero.isi by assumption. cbn.
  by rewrite DecimalZ.of_to.
Qed.

Lemma str_of_int_inj (n m : Z) : str_of_int n = str_of_int m → n = m.
Proof.
  intros Heq.
  assert (Some n = Some m) as [= ->]; [|done].
  by rewrite <- !decimal_value_str_of_int, Heq.
Qed.

(** ** ASCII text survives encoding and decoding *)


Lemma encode_ascii_length (s : str) (bs : bytes) :
  encode_ascii s = Some bs → length bs = length s.
Proof.
  revert bs. induction s as [|c s IH]; intros bs; cbn.
  - by intros [= <-].
  - destruct (c <? 128)%N; [|done].
    destruct (Byte.of_N c); [|done].
    destruct (encode_ascii s) as [bs'|]; [|done].
    intros [= <-]. cbn. f_equal. by apply IH.
Qed.

Lemma decode_encode_ascii (s : str) (bs : bytes) :
  encode_ascii s = Some bs → decode_utf8 bs = Some s.
Proof.
  revert bs. induction s as [|c s IH]; intros bs; cbn.
  - by intros [= <-].
  - destruct (N.ltb_spec c 128) as [Hc|]; [|done].
    destruct (Byte.of_N c) as [b|] eqn:Hb; [|done].
    destruct (encode_ascii s) as [bs'|]; [|done].
    intros [= <-]. apply Byte.to_of_N in Hb.
    cbn. rewrite Hb.
    destruct (N.ltb_spec c 128) as [_|]; [|lia].
    by rewrite (IH bs').
Qed.

Lemma is_ascii_app (s t : str) : is_ascii s → is_ascii t → is_ascii (s ++ t).
Proof. apply Forall_app_2. Qed.

Lemma is_ascii_string_of_uint (d : uint) :
  is_ascii (lit (NilEmpty.string_of_uint d)).
Proof.
  induction d; cbn; try (by constructor);
    (constructor; [by vm_compute | assumption]).
Qed.

Lemma is_ascii_str_of_int (n : Z) : is_ascii (str_of_int n).
Proof.
  unfold str_of_int.
  destruct (Z.to_int n) as [d|d]; cbn.
  - destruct d; try apply (is_ascii_string_of_uint (_ _)).
    by repeat constructor.
  - constructor; [by vm_compute|].
    destruct d; try apply (is_ascii_string_of_uint (_ _)).
    by repeat constructor.
Qed.

Lemma is_ascii_ack_text (frame : Z) : is_ascii (ack_text frame).
Proof.
  apply is_ascii_app; [|apply is_ascii_str_of_int].
  unfold is_ascii, lit. cbn. repeat constructor.
Qed.

(** ** Reading a file line by line *)

Lemma readline_upto_spec (limit : nat) (data : bytes) :
  let '(line, rest) := readline_upto limit data in
  line ++ rest = data ∧
  (length line ≤ limit)%nat ∧
  (limit ≠ O → data ≠ [] → line ≠ []).
Proof.
  revert data. induction limit as [|k IH]; intros data; cbn.
  - split_and!; [done | done | done].
  - destruct data as [|b rest]; [split_and!; [done | simpl; lia | done]|].
    destruct (Byte.eqb b x0a).
    + split_and!; [done | cbn; lia | done].
    + specialize (IH rest). destruct (readline_upto k rest) as [line rest'].
      destruct IH as (Happ & Hlen & _).
      split_and!; [by rewrite <- Happ | cbn; lia | done].
Qed.

Lemma readline_1024_spec (data line rest : bytes) :
  readline 1024 data = (line, rest) →
  line ++ rest = data ∧ (length line ≤ 1024)%nat ∧ (data ≠ [] → line ≠ []).
Proof.
  unfold readline. cbn [Z.ltb Z.compare]. intros Hr.
  pose proof (readline_upto_spec (Z.to_nat 1024) data) as Hs.
  rewrite Hr in Hs. destruct Hs as (? & ? & Hne).
  split_and!; [done | lia | by apply Hne].
Qed.

(** ** The sender's loop *)

Section sender.
Context `{Socket Sock}.


Lemma send_frame_open (fuel : nat) (s : Sock) (frame_loc : str)
    (sleep : Z) (fs : filesystem) (data : bytes) :
  fs !! frame_loc = Some data →
  send_frame fuel s frame_loc sleep fs =
    (let '(buf, filedesc) := readline 1024 data in
     send_frame_loop fuel s buf filedesc).
Proof. intros Hf. unfold send_frame. by rewrite Hf. Qed.



End sender.

(** ** The receiver's loop, on any socket *)

Section receiver.
Context `{Socket Sock}.

Lemma request_bounds (frame_size img_size : Z) :
  img_size < frame_size →
  0 < request frame_size img_size ≤ 1024 ∧
  request frame_size img_size ≤ frame_size - img_size.
Proof. unfold request. intros Hlt. case_match; lia. Qed.

Lemma receive_frame_body_Done (frame_size : Z) (st st' : rf_state) :
  receive_frame_body frame_size st = Done st' →
  ∃ data : bytes,
    recv (rf_sock st) (request frame_size (rf_img_size st))
      = Some (data, rf_sock st') ∧
    rf_img_size st' = rf_img_size st + Z.of_nat (length data) ∧
    rf_img st' = rf_img st ++ data.
Proof.
  unfold receive_frame_body, request, sock_recv.
  destruct (frame_size - rf_img_size st <? 1024);
    (destruct (recv _ _) as [[data s1]|]; [|done]);
    cbn; intros [= <-]; by exists data.
Qed.

Lemma frame_reads_total (frame_size img_size : Z) (reqs : list Z)
    (chunks : list bytes) :
  frame_reads frame_size img_size reqs chunks →
  img_size ≤ frame_size →
  img_size + Z.of_nat (length (concat chunks)) = frame_size.
Proof.
  revert img_size chunks. induction reqs as [|n reqs IH];
    intros img_size [|data chunks]; cbn; try done.
  - lia.
  - intros (Hlt & -> & Hlen & Hrest) Hle.
    rewrite length_app, Nat2Z.inj_add, Z.add_assoc.
    apply IH; [done|]. case_match; lia.
Qed.

Lemma frame_reads_requests (frame_size img_size : Z) (reqs : list Z)
    (chunks : list bytes) :
  frame_reads frame_size img_size reqs chunks →
  Forall (λ n, 0 < n ≤ 1024) reqs ∧ length reqs = length chunks.
Proof.
  revert img_size chunks. induction reqs as [|n reqs IH];
    intros img_size [|data chunks]; cbn; try done.
  intros (Hlt & -> & Hlen & Hrest).
  destruct (IH _ _ Hrest) as [Hall ->]. split; [|done].
  constructor; [|done]. case_match; lia.
Qed.

Lemma receive_frame_loop_Done (fuel : nat) (frame_size : Z)
    (st st' : rf_state) :
  receive_frame_loop fuel frame_size st = Done st' →
  ∃ (reqs : list Z) (chunks : list bytes),
    frame_reads frame_size (rf_img_size st) reqs chunks ∧
    calls (rf_sock st') = calls (rf_sock st) ++ (CallRecv <$> reqs) ∧
    rf_img st' = rf_img st ++ concat chunks ∧
    rf_img_size st' = rf_img_size st + Z.of_nat (length (concat chunks)) ∧
    (length reqs ≤ fuel)%nat.
Proof.
  revert st. induction fuel as [|fuel IH]; intros st; cbn.
  - destruct (Z.ltb_spec (rf_img_size st) frame_size) as [Hlt|Hge]; [done|].
    intros [= <-]. exists [], []. cbn. rewrite !app_nil_r.
    split_and!; [lia | done | done | lia | done].
  - destruct (Z.ltb_spec (rf_img_size st) frame_size) as [Hlt|Hge].
    + destruct (receive_frame_body frame_size st) as [st1| | |] eqn:Hb;
        try done.
      cbn. intros Hloop.
      destruct (IH _ Hloop) as (reqs & chunks & Hfr & Hcalls & Himg & Hsz & Hn).
      apply receive_frame_body_Done in Hb as (data & Hrecv & Hsz1 & Himg1).
      pose proof (recv_calls _ _ _ _ Hrecv) as Hc1.
      apply recv_length in Hrecv;
        [|pose proof (request_bounds _ _ Hlt); lia].
      exists (request frame_size (rf_img_size st) :: reqs), (data :: chunks).
      split_and!.
      * cbn. rewrite <- Hsz1. done.
      * rewrite Hcalls, Hc1, fmap_cons, <- app_assoc. done.
      * rewrite Himg, Himg1. cbn [concat]. by rewrite app_assoc.
      * rewrite Hsz, Hsz1. cbn [concat]. rewrite length_app. lia.
      * cbn. lia.
    + intros [= <-]. exists [], []. cbn. rewrite !app_nil_r.
      split_and!; [lia | done | done | lia | lia].
Qed.

(** The running count never passes the announced size. *)
Lemma rf_reach_invariant (frame_size : Z) (st0 st : rf_state) :
  rf_reach frame_size st0 st →
  rf_img_size st0 ≤ frame_size →
  rf_img_size st0 = Z.of_nat (length (rf_img st0)) →
  rf_img_size st ≤ frame_size ∧
  rf_img_size st0 ≤ rf_img_size st ∧
  rf_img_size st = Z.of_nat (length (rf_img st)).
Proof.
  intros Hreach Hle0 Hlen0. induction Hreach as [|st st' _ IH Hlt Hb].
  - lia.
  - destruct IH as (Hle & Hmono & Hlen).
    apply receive_frame_body_Done in Hb as (data & Hrecv & Hsz & Himg).
    apply recv_length in Hrecv;
      [|pose proof (request_bounds _ _ Hlt); lia].
    pose proof (request_bounds _ _ Hlt).
    rewrite Hsz, Himg, length_app. lia.
Qed.

(** A run of the loop that ends goes through reachable states only. *)
Lemma receive_frame_loop_reach (fuel : nat) (frame_size : Z)
    (st0 st st' : rf_state) :
  rf_reach frame_size st0 st →
  receive_frame_loop fuel frame_size st = Done st' →
  rf_reach frame_size st0 st' ∧ ¬ rf_img_size st' < frame_size.
Proof.
  revert st. induction fuel as [|fuel IH]; intros st Hreach; cbn.
  - destruct (Z.ltb_spec (rf_img_size st) frame_size); [done|].
    intros [= <-]. split; [done | lia].
  - destruct (Z.ltb_spec (rf_img_size st) frame_size) as [Hlt|Hge].
    + destruct (receive_frame_body frame_size st) as [st1| | |] eqn:Hb;
        try done.
      cbn. apply IH. by eapply rf_reach_step.
    + intros [= <-]. split; [done | lia].
Qed.

End receiver.

(** ** The receiver's loop on the endpoint [wire] *)




(** ** Waiting for the acknowledgment *)

Section ack.
Context `{Socket Sock}.

Lemma reads_app (s s1 s2 : Sock) (l1 l2 : list str) :
  reads s l1 s1 → reads s1 l2 s2 → reads s (l1 ++ l2) s2.
Proof.
  induction 1 as [|s msg s' msgs s'' Hm _ IH]; [done|].
  intros Hr. cbn. eapply reads_cons; [done | by apply IH].
Qed.

(** The loop returns exactly when the message at hand, or one read
    later, is the acknowledgment; everything before it is dropped. *)
Lemma waiting_for_ack_loop_Done (fuel : nat) (s s' : Sock) (msg : str)
    (frame : Z) :
  waiting_for_ack_loop fuel s msg frame = Done s' ↔
  ∃ (dropped later : list str),
    msg :: later = dropped ++ [ack_text frame] ∧
    Forall (λ m, m ≠ ack_text frame) dropped ∧
    reads s later s' ∧
    (length later ≤ fuel)%nat.
Proof.
  revert s msg. induction fuel as [|fuel IH]; intros s msg; cbn.
  - case_bool_decide as Hm; split.
    + done.
    + intros (dropped & later & Heq & Hall & Hr & Hlen).
      destruct later; [|cbn in Hlen; lia].
      destruct dropped as [|? [|? ?]]; simplify_eq/=.
    + intros [= <-]. subst msg.
      exists [], []. split_and!; [done | done | constructor | done].
    + intros (dropped & later & Heq & Hall & Hr & Hlen).
      destruct later; [|cbn in Hlen; lia]. by inversion Hr.
  - case_bool_decide as Hm; split.
    + destruct (recv_msg s) as [[msg1 s1]| | |] eqn:Hrm; try done. cbn.
      intros Hloop. apply IH in Hloop
        as (dropped & later & Heq & Hall & Hr & Hlen).
      exists (msg :: dropped), (msg1 :: later). split_and!.
      * by rewrite Heq.
      * by constructor.
      * by eapply reads_cons.
      * cbn. lia.
    + intros (dropped & later & Heq & Hall & Hr & Hlen).
      destruct dropped as [|m dropped]; [simplify_eq/=|].
      injection Heq as <- Heq. subst later.
      apply Forall_cons in Hall as [_ Hall].
      destruct (dropped ++ [ack_text frame]) as [|x l] eqn:Hd;
        [by destruct dropped|].
      inversion Hr as [|? ? s1 ? ? Hrm Hr']; subst. rewrite Hrm. cbn.
      apply IH. exists dropped, l. cbn in Hlen.
      split_and!; [done | done | done | lia].
    + intros [= <-]. subst msg.
      exists [], []. split_and!; [done | done | constructor | cbn; lia].
    + intros (dropped & later & Heq & Hall & Hr & Hlen).
      subst msg.
      destruct dropped as [|m dropped].
      * simplify_eq/=. by inversion Hr.
      * apply Forall_cons in Hall as [Hm _]. by simplify_eq/=.
Qed.

Lemma waiting_for_ack_Done (fuel : nat) (s s' : Sock) (frame : Z) :
  waiting_for_ack fuel s frame = Done s' ↔
  ∃ dropped : list str,
    Forall (λ m, m ≠ ack_text frame) dropped ∧
    reads s (dropped ++ [ack_text frame]) s' ∧
    (length dropped ≤ fuel)%nat.
Proof.
  unfold waiting_for_ack. split.
  - destruct (recv_msg s) as [[msg s1]| | |] eqn:Hrm; try done. cbn.
    intros (dropped & later & Heq & Hall & Hr & Hlen)%waiting_for_ack_loop_Done.
    exists dropped. split_and!; [done | |].
    + rewrite <- Heq. by eapply reads_cons.
    + apply (f_equal length) in Heq. rewrite length_app in Heq.
      cbn in Heq. lia.
  - intros (dropped & Hall & Hr & Hlen).
    destruct (dropped ++ [ack_text frame]) as [|msg later] eqn:Heq;
      [by destruct dropped|].
    inversion Hr as [|? ? ? ? ? Hrm Hr']; subst. rewrite Hrm. cbn.
    apply waiting_for_ack_loop_Done. exists dropped, later.
    split_and!; [done | done | done |].
    apply (f_equal length) in Heq. rewrite length_app in Heq.
    cbn in Heq. lia.
Qed.

(** While messages keep coming and none is the acknowledgment, the loop
    is still running when the fuel runs out, whatever the fuel. *)
Lemma waiting_for_ack_loop_runs (fuel : nat) (s : Sock) (msg : str)
    (frame : Z) :
  msg ≠ ack_text frame →
  (∀ msgs s', reads s msgs s' →
     (ack_text frame ∉ msgs) ∧ (∃ m s'', recv_msg s' = Done (m, s''))) →
  waiting_for_ack_loop fuel s msg frame = OutOfFuel.
Proof.
  revert s msg. induction fuel as [|fuel IH]; intros s msg Hm Hs; cbn.
  - by rewrite bool_decide_eq_true_2.
  - rewrite bool_decide_eq_true_2 by done.
    destruct (Hs [] s (reads_nil s)) as [_ (m & s1 & Hrm)]. rewrite Hrm. cbn.
    apply IH.
    + destruct (Hs [m] s1) as [Hn _]; [by repeat econstructor|].
      intros ->. apply Hn. by left.
    + intros msgs s' Hr. destruct (Hs (m :: msgs) s') as [Hn Hnext].
      * by eapply reads_cons.
      * split; [|done]. intros Hin. apply Hn. by right.
Qed.

End ack.

(** * The frame protocol *)

Lemma receive_frame_Done `{Socket Sock} (fuel : nat) (s s' : Sock)
    (frame frame_size : Z) (save_loc : str) (fs fs' : filesystem) :
  receive_frame fuel s frame frame_size save_loc fs = Done (s', fs') →
  ∃ st' : rf_state,
    receive_frame_loop fuel frame_size (RfState s 0 []) = Done st' ∧
    s' = rf_sock st' ∧
    fs' = <[frame_filename save_loc frame := rf_img st']> fs.
Proof.
  unfold receive_frame.
  destruct (receive_frame_loop _ _ _) as [st'| | |]; try done.
  cbn. intros [= <- <-]. exists st'. by rewrite insert_insert_eq.
Qed.


(** C2. When [receive_frame] returns for a non-negative [frame_size],
    the file holds exactly [frame_size] bytes: every iteration asked for
    the remaining count when it was below 1024 and for 1024 otherwise,
    was given no more than it asked for, and the loop stopped when the
    count reached [frame_size]. *)
Theorem C2_receive_frame_exact_size `{Socket Sock} (fuel : nat) (s s' : Sock)
    (frame frame_size : Z) (save_loc : str) (fs fs' : filesystem) :
  0 ≤ frame_size →
  receive_frame fuel s frame frame_size save_loc fs = Done (s', fs') →
  ∃ (reqs : list Z) (chunks : list bytes),
    fs' = <[frame_filename save_loc frame := concat chunks]> fs ∧
    Z.of_nat (length (concat chunks)) = frame_size ∧
    frame_reads frame_size 0 reqs chunks ∧
    Forall (λ n, 0 < n ≤ 1024) reqs ∧
    calls s' = calls s ++ (CallRecv <$> reqs).
Proof.
  intros Hsize (st' & Hloop & -> & ->)%receive_frame_Done.
  apply receive_frame_loop_Done in Hloop
    as (reqs & chunks & Hfr & Hcalls & Himg & Hsz & _).
  cbn in *. exists reqs, chunks.
  pose proof (frame_reads_total _ _ _ _ Hfr Hsize).
  pose proof (frame_reads_requests _ _ _ _ Hfr) as [? _].
  rewrite Himg. split_and!; [done | lia | done | done | done].
Qed.


(** C10. Starting from an empty count, every state the loop of
    [receive_frame] goes through has a count of written bytes between 0
    and [frame_size], equal to the number of bytes written; while the
    loop runs, the next request is at least 1, at most 1024 and at most
    the remaining count, and the body leaves the count within
    [frame_size].  A run of the loop that ends goes through such states
    only and ends with the count equal to [frame_size]. *)
Theorem C10_receive_frame_never_overshoots `{Socket Sock} (s : Sock)
    (frame_size : Z) (st : rf_state) :
  0 ≤ frame_size →
  rf_reach frame_size (RfState s 0 []) st →
  0 ≤ rf_img_size st ≤ frame_size ∧
  rf_img_size st = Z.of_nat (length (rf_img st)) ∧
  (rf_img_size st < frame_size →
     0 < request frame_size (rf_img_size st) ≤ 1024 ∧
     request frame_size (rf_img_size st) ≤ frame_size - rf_img_size st ∧
     ∀ st', receive_frame_body frame_size st = Done st' →
       ∃ data : bytes,
         recv (rf_sock st) (request frame_size (rf_img_size st))
           = Some (data, rf_sock st') ∧
         Z.of_nat (length data) ≤ request frame_size (rf_img_size st) ∧
         rf_img st' = rf_img st ++ data ∧
         rf_img_size st' = rf_img_size st + Z.of_nat (length data) ∧
         rf_img_size st' ≤ frame_size) ∧
  (∀ fuel st', receive_frame_loop fuel frame_size st = Done st' →
     rf_reach frame_size (RfState s 0 []) st' ∧
     rf_img_size st' = frame_size).
Proof.
  intros Hsize Hreach.
  destruct (rf_reach_invariant _ _ _ Hreach) as (Hle & Hge & Hlen);
    [done | done |]. cbn in Hge.
  split_and!; [done | done | done | |].
  - intros Hlt. pose proof (request_bounds _ _ Hlt) as [Hreq Hrem].
    split_and!; [lia | lia | done |].
    intros st' Hb.
    destruct (receive_frame_body_Done _ _ _ Hb) as (data & Hrecv & Hsz & Himg).
    exists data. pose proof (recv_length _ _ _ _ Hrecv) as Hd.
    split_and!; [done | lia | done | done | lia].
  - intros fuel st' Hloop.
    destruct (receive_frame_loop_reach _ _ _ _ _ Hreach Hloop) as [Hr' Hstop].
    split; [done|].
    destruct (rf_reach_invariant _ _ _ Hr') as (Hle' & _ & _); [done | done |].
    lia.
Qed.

Lemma recv_msg_Done `{Socket Sock} (s s' : Sock) (msg : str) :
  recv_msg s = Done (msg, s') ↔
  ∃ d : bytes, recv s 1024 = Some (d, s') ∧ decode_utf8 d = Some msg.
Proof.
  unfold recv_msg, sock_recv. split.
  - destruct (recv s 1024) as [[d s1]|]; [|done]. cbn.
    destruct (decode_utf8 d) as [m|] eqn:Hd; [|done]. cbn.
    intros [= <- <-]. by exists d.
  - intros (d & -> & Hd). cbn. by rewrite Hd.
Qed.




(** C4. [waiting_for_ack] returns exactly when the messages it reads
    are some messages other than [OK FRAME <frame>], all dropped,
    followed by that text; the socket is then left just after it.  If no
    sequence of reads ever delivers that text the call does not return,
    whatever the fuel; and if moreover every read delivers a message,
    the loop is still running when the fuel runs out, whatever the
    fuel. *)
Theorem C4_waiting_for_ack `{Socket Sock} (s : Sock) (frame : Z) :
  (∀ fuel s',
     waiting_for_ack fuel s frame = Done s' ↔
     ∃ dropped : list str,
       Forall (λ m, m ≠ lit "OK FRAME " ++ str_of_int frame) dropped ∧
       reads s (dropped ++ [lit "OK FRAME " ++ str_of_int frame]) s' ∧
       (length dropped ≤ fuel)%nat) ∧
  ((∀ msgs s', reads s msgs s' → ack_text frame ∉ msgs) →
   ∀ fuel s', waiting_for_ack fuel s frame ≠ Done s') ∧
  ((∀ msgs s', reads s msgs s' →
      (ack_text frame ∉ msgs) ∧ (∃ m s'', recv_msg s' = Done (m, s''))) →
   ∀ fuel, waiting_for_ack fuel s frame = OutOfFuel).
Proof.
  split_and!.
  - intros fuel s'. apply waiting_for_ack_Done.
  - intros Hnever fuel s' (dropped & _ & Hreads & _)%waiting_for_ack_Done.
    apply (Hnever _ _ Hreads). apply elem_of_app. right. by left.
  - intros Hs fuel. unfold waiting_for_ack.
    destruct (Hs [] s (reads_nil s)) as [_ (m & s1 & Hrm)]. rewrite Hrm. cbn.
    apply waiting_for_ack_loop_runs.
    + destruct (Hs [m] s1) as [Hn _]; [by repeat econstructor|].
      intros ->. apply Hn. by left.
    + intros msgs s' Hr. destruct (Hs (m :: msgs) s') as [Hn Hnext].
      * by eapply reads_cons.
      * split; [|done]. intros Hin. apply Hn. by right.
Qed.



(** C8, as the code has it.  [init_server_socket] returns when the
    default address resolves and the address can be bound; the socket it
    returns is bound to the given address, or to the address the host's
    own name resolves to when none is given, and to the given port, or to
    5000.  The calls made are the creation of the socket, the lookup of
    the default address when needed, and [bind]: the socket is not
    listening and no connection has been accepted. *)
Theorem C8_init_server_socket (h : host) (address : option str)
    (port : option Z) (sock : os_socket) :
  init_server_socket h address port = Done sock →
  ∃ bind_address : str,
    (match address with
     | Some a => bind_address = a
     | None => gethostbyname h (gethostname h) = Some bind_address
     end) ∧
    can_bind h bind_address (default 5000 port) = true ∧
    os_state sock = Bound bind_address (default 5000 port) ∧
    os_calls sock =
      [SysSocket]
        ++ (match address with
            | Some _ => []
            | None => [SysGethostname; SysGethostbyname (gethostname h)]
            end)
        ++ [SysBind bind_address (default 5000 port)] ∧
    (SysListen ∉ os_calls sock) ∧
    (SysAccept ∉ os_calls sock).
Proof.
  unfold init_server_socket. destruct address as [a|]; cbn.
  - destruct (can_bind h a (default 5000 port)) eqn:Hb; [|done].
    intros [= <-]. exists a. cbn.
    split_and!; [done | done | done | done | |];
      intros Hin; repeat (apply elem_of_cons in Hin as [|Hin]; [done|]);
      by apply elem_of_nil in Hin.
  - destruct (gethostbyname h (gethostname h)) as [a|] eqn:Hr; [|done]. cbn.
    destruct (can_bind h a (default 5000 port)) eqn:Hb; [|done].
    intros [= <-]. exists a. cbn.
    split_and!; [done | done | done | done | |];
      intros Hin; repeat (apply elem_of_cons in Hin as [|Hin]; [done|]);
      by apply elem_of_nil in Hin.
Qed.

(** C9. [receive_bytes_to_string] makes one call on the socket,
    [recv(1024)], which yields at most 1024 bytes.  When these bytes are
    valid UTF-8 it returns their text without its line feeds, and the
    text returned holds no line feed; when they are not, it raises
    [UnicodeDecodeError]. *)
Theorem C9_receive_bytes_to_string `{Socket Sock} (s s' : Sock) (d : bytes) :
  recv s 1024 = Some (d, s') →
  (length d ≤ 1024)%nat ∧
  calls s' = calls s ++ [CallRecv 1024] ∧
  receive_bytes_to_string s =
    match decode_utf8 d with
    | Some text => Done (filter (λ c, c ≠ 10%N) text, s')
    | None => Raised UnicodeDecodeError
    end ∧
  ∀ msg s'', receive_bytes_to_string s = Done (msg, s'') →
    (10%N ∉ msg) ∧ s'' = s' ∧
    ∃ text, decode_utf8 d = Some text ∧ msg = filter (λ c, c ≠ 10%N) text.
Proof.
  intros Hrecv.
  assert (receive_bytes_to_string s =
            match decode_utf8 d with
            | Some text => Done (filter (λ c, c ≠ 10%N) text, s')
            | None => Raised UnicodeDecodeError
            end) as Heq.
  { unfold receive_bytes_to_string, sock_recv. rewrite Hrecv. cbn.
    by destruct (decode_utf8 d). }
  split_and!.
  - pose proof (recv_length _ _ _ _ Hrecv). lia.
  - by apply (recv_calls _ _ _ _ Hrecv).
  - done.
  - intros msg s''. rewrite Heq.
    destruct (decode_utf8 d) as [text|]; [|done].
    intros [= <- <-]. split_and!; [| done | by exists text].
    intros Hin%list_elem_of_filter. by destruct Hin.
Qed.

(** * The theorems at sample values *)


Example send_frame_sample :
  send_frame 2 Sample.idle Sample.frame_loc 1 Sample.fs
  = Done (Wire [] false [CallSend [x41; x0a]; CallSend [x42; x43]]).
Proof. vm_compute. reflexivity. Qed.

Example receive_frame_sample :
  receive_frame 2 Sample.incoming 7 4 Sample.save_loc ∅
  = Done (Wire [[x44]] false [CallRecv 4; CallRecv 1],
          {[ lit "save/frame7.jpg" := Sample.body ]}).
Proof. vm_compute. reflexivity. Qed.

Lemma C2_witness :
  ∃ (reqs : list Z) (chunks : list bytes),
    ({[ lit "save/frame7.jpg" := Sample.body ]} : filesystem)
      = <[frame_filename Sample.save_loc 7 := concat chunks]> ∅ ∧
    Z.of_nat (length (concat chunks)) = 4 ∧
    frame_reads 4 0 reqs chunks ∧
    Forall (λ n, 0 < n ≤ 1024) reqs ∧
    calls (Wire [[x44]] false [CallRecv 4; CallRecv 1])
      = calls Sample.incoming ++ (CallRecv <$> reqs).
Proof.
  apply (C2_receive_frame_exact_size 2 Sample.incoming
           (Wire [[x44]] false [CallRecv 4; CallRecv 1]) 7 4 Sample.save_loc
           ∅ {[ lit "save/frame7.jpg" := Sample.body ]}).
  - lia.
  - vm_compute. reflexivity.
Defined.



Lemma hung_up_reads (w w' : wire) (msgs : list str) :
  inbox w = [] → peer_closed w = true →
  reads w msgs w' →
  inbox w' = [] ∧ peer_closed w' = true ∧ Forall (λ m, m = []) msgs.
Proof.
  intros Hi Hc Hr. induction Hr as [|s msg s1 msgs s' Hm _ IH]; [done|].
  apply recv_msg_Done in Hm as (d & Hrecv & Hd).
  cbn in Hrecv. unfold wire_recv in Hrecv. rewrite Hi, Hc in Hrecv.
  cbn in Hrecv. injection Hrecv as <- <-. cbn in Hd. injection Hd as <-.
  destruct IH as (? & ? & ?); [done | done |]. split_and!; [done | done |].
  by constructor.
Qed.

Lemma hung_up_recv_msg (w : wire) :
  inbox w = [] → peer_closed w = true →
  ∃ w', recv_msg w = Done ([], w').
Proof.
  intros Hi Hc. eexists. apply recv_msg_Done. exists []. split; [|done].
  cbn. unfold wire_recv. rewrite Hi, Hc. cbn. reflexivity.
Qed.

Lemma C4_witness :
  waiting_for_ack 1 Sample.acked 7 = Done (Wire [] false [CallRecv 1024]) ∧
  (∀ s', waiting_for_ack 5 Sample.hung_up 7 ≠ Done s') ∧
  waiting_for_ack 5 Sample.hung_up 7 = OutOfFuel.
Proof.
  assert (∀ msgs s', reads Sample.hung_up msgs s' →
            (ack_text 7 ∉ msgs) ∧ (∃ m s'', recv_msg s' = Done (m, s'')))
    as Hsilent.
  { intros msgs s' Hr.
    destruct (hung_up_reads Sample.hung_up s' msgs eq_refl eq_refl Hr)
      as (Hi & Hc & Hall).
    split.
    - intros Hin. rewrite Forall_forall in Hall.
      by specialize (Hall _ Hin).
    - destruct (hung_up_recv_msg s' Hi Hc) as [w' Hw']. by exists [], w'. }
  destruct (C4_waiting_for_ack Sample.acked 7) as (Hiff & _ & _).
  destruct (C4_waiting_for_ack Sample.hung_up 7) as (_ & Hnever & Hruns).
  split_and!.
  - apply Hiff. exists []. split_and!; [constructor | | cbn; lia].
    eapply reads_cons; [vm_compute; reflexivity | constructor].
  - apply Hnever. intros msgs s' Hr. by destruct (Hsilent msgs s' Hr).
  - by apply Hruns.
Defined.



(** C8, as stated, fails: called without an address on the host [cam],
    [init_server_socket] returns a socket that is bound to the host's
    address and port 5000 and has accepted no connection. *)
Lemma C8_no_accept :
  ∃ sock : os_socket,
    init_server_socket Sample.cam None None = Done sock ∧
    os_state sock = Bound (lit "10.0.0.5") 5000 ∧
    ¬ accepted_connection sock.
Proof.
  eexists. split_and!; [vm_compute; reflexivity | reflexivity |].
  intros [(address & port & Hstate) _]. discriminate Hstate.
Qed.

Lemma C8_witness :
  ∃ bind_address : str,
    gethostbyname Sample.cam (gethostname Sample.cam) = Some bind_address ∧
    can_bind Sample.cam bind_address 5000 = true ∧
    Bound (lit "10.0.0.5") 5000 = Bound bind_address 5000 ∧
    [SysSocket; SysGethostname; SysGethostbyname (lit "cam");
     SysBind (lit "10.0.0.5") 5000]
      = [SysSocket] ++ [SysGethostname; SysGethostbyname (lit "cam")]
          ++ [SysBind bind_address 5000] ∧
    (SysListen ∉ [SysSocket; SysGethostname; SysGethostbyname (lit "cam");
                  SysBind (lit "10.0.0.5") 5000]) ∧
    (SysAccept ∉ [SysSocket; SysGethostname; SysGethostbyname (lit "cam");
                  SysBind (lit "10.0.0.5") 5000]).
Proof.
  apply (C8_init_server_socket Sample.cam None None
           (OsSocket (Bound (lit "10.0.0.5") 5000)
              [SysSocket; SysGethostname; SysGethostbyname (lit "cam");
               SysBind (lit "10.0.0.5") 5000])).
  vm_compute. reflexivity.
Defined.

Lemma C9_witness :
  (length [x4f; x0a; x4b; x0a] ≤ 1024)%nat ∧
  calls (Wire [] false [CallRecv 1024])
    = calls (Wire [[x4f; x0a; x4b; x0a]] false []) ++ [CallRecv 1024] ∧
  receive_bytes_to_string (Wire [[x4f; x0a; x4b; x0a]] false []) =
    match decode_utf8 [x4f; x0a; x4b; x0a] with
    | Some text =>
        Done (filter (λ c, c ≠ 10%N) text, Wire [] false [CallRecv 1024])
    | None => Raised UnicodeDecodeError
    end ∧
  ∀ msg s'',
    receive_bytes_to_string (Wire [[x4f; x0a; x4b; x0a]] false [])
      = Done (msg, s'') →
    (10%N ∉ msg) ∧ s'' = Wire [] false [CallRecv 1024] ∧
    ∃ text, decode_utf8 [x4f; x0a; x4b; x0a] = Some text ∧
            msg = filter (λ c, c ≠ 10%N) text.
Proof.
  apply (C9_receive_bytes_to_string (Wire [[x4f; x0a; x4b; x0a]] false [])).
  vm_compute. reflexivity.
Defined.

Example receive_bytes_to_string_sample :
  receive_bytes_to_string (Wire [[x4f; x0a; x4b; x0a]] false [])
  = Done (lit "OK", Wire [] false [CallRecv 1024]).
Proof. vm_compute. reflexivity. Qed.

Example receive_bytes_to_string_invalid :
  receive_bytes_to_string (Wire [[xff]] false []) = Raised UnicodeDecodeError.
Proof. vm_compute. reflexivity. Qed.

Lemma C10_witness :
  let st := RfState (Wire [[x43; x44]] false [CallRecv 4]) 3
              [x41; x0a; x42] in
  0 ≤ rf_img_size st ≤ 4 ∧
  rf_img_size st = Z.of_nat (length (rf_img st)) ∧
  (rf_img_size st < 4 →
     0 < request 4 (rf_img_size st) ≤ 1024 ∧
     request 4 (rf_img_size st) ≤ 4 - rf_img_size st ∧
     ∀ st', receive_frame_body 4 st = Done st' →
       ∃ data : bytes,
         recv (rf_sock st) (request 4 (rf_img_size st))
           = Some (data, rf_sock st') ∧
         Z.of_nat (length data) ≤ request 4 (rf_img_size st) ∧
         rf_img st' = rf_img st ++ data ∧
         rf_img_size st' = rf_img_size st + Z.of_nat (length data) ∧
         rf_img_size st' ≤ 4) ∧
  (∀ fuel st', receive_frame_loop fuel 4 st = Done st' →
     rf_reach 4 (RfState Sample.incoming 0 []) st' ∧
     rf_img_size st' = 4).
Proof.
  apply (C10_receive_frame_never_overshoots Sample.incoming 4
           (RfState (Wire [[x43; x44]] false [CallRecv 4]) 3
              [x41; x0a; x42])).
  - lia.
  - eapply rf_reach_step.
    + apply rf_reach_start.
    + simpl. lia.
    + vm_compute. reflexivity.
Defined.

Example receive_frame_body_sample :
  receive_frame_body 4
    (RfState (Wire [[x43; x44]] false [CallRecv 4]) 3 [x41; x0a; x42])
  = Done (RfState (Wire [[x44]] false [CallRecv 4; CallRecv 1]) 4
            [x41; x0a; x42; x43]).
Proof. vm_compute. reflexivity. Qed.

(** * Further properties *)

(** ** Where a frame is stored *)

(** X1. Two frames received under the same folder are stored in the same
    file only if they have the same number. *)
Theorem frame_filename_inj (save_loc : str) (frame frame' : Z) :
  frame_filename save_loc frame = frame_filename save_loc frame' ↔
  frame = frame'.
Proof.
  split; [|by intros ->].
  unfold frame_filename.
  intros Heq%app_inv_head%app_inv_head.
  apply app_inv_tail in Heq. by apply str_of_int_inj.
Qed.



(** ** Frames on the endpoint [wire] *)










(** ** The chunks of [send_frame] are lines *)

Lemma readline_upto_line (limit : nat) (data line rest : bytes) :
  readline_upto limit data = (line, rest) →
  (∀ i, (S i < length line)%nat → line !! i ≠ Some x0a) ∧
  (rest ≠ [] → last line = Some x0a ∨ length line = limit).
Proof.
  revert data line rest. induction limit as [|k IH]; intros data line rest.
  - cbn. intros [= <- <-]. split; [cbn; lia | by right].
  - destruct data as [|b data]; cbn.
    { intros [= <- <-]. split; [cbn; lia | done]. }
    destruct (Byte.eqb b x0a) eqn:Hb.
    + intros [= <- <-]. split; [cbn; lia | by left; apply Byte.byte_dec_bl in Hb as ->].
    + destruct (readline_upto k data) as [line' rest'] eqn:Hr.
      intros [= <- <-]. destruct (IH _ _ _ Hr) as [Hno Hfull]. split.
      * intros [|i] Hi; cbn in *.
        -- intros [= ->]. by rewrite Byte.byte_dec_lb in Hb.
        -- apply Hno. lia.
      * intros Hrest. destruct (Hfull Hrest) as [Hl|Hl]; [left | right; cbn; lia].
        destruct line'; [done | exact Hl].
Qed.

Lemma readline_1024_line (data line rest : bytes) :
  readline 1024 data = (line, rest) →
  line_chunk line ∨ (line = [] ∧ data = []).
Proof.
  intros Hr. pose proof (readline_1024_spec _ _ _ Hr) as (Happ & Hlen & Hne).
  unfold readline in Hr. cbn [Z.ltb Z.compare] in Hr.
  apply readline_upto_line in Hr as [Hno _].
  destruct data as [|b data].
  - right. by apply app_eq_nil in Happ as [-> _].
  - left. split_and!; [by apply Hne | done | done].
Qed.

Lemma readline_1024_full (data line rest : bytes) :
  readline 1024 data = (line, rest) → rest ≠ [] → full_chunk line.
Proof.
  unfold readline. cbn [Z.ltb Z.compare]. intros Hr Hrest.
  apply readline_upto_line in Hr as [_ Hfull].
  destruct (Hfull Hrest) as [?|Hl]; [by left | right]. by rewrite Hl.
Qed.

Section sender_lines.
Context `{Socket Sock}.

Lemma send_frame_loop_lines (fuel : nat) (data : bytes) (s s' : Sock) :
  (let '(buf, filedesc) := readline 1024 data in
   send_frame_loop fuel s buf filedesc) = Done s' →
  ∃ chunks : list bytes,
    concat chunks = data ∧
    calls s' = calls s ++ (CallSend <$> chunks) ∧
    Forall line_chunk chunks ∧
    ∀ i c, (S i < length chunks)%nat → chunks !! i = Some c → full_chunk c.
Proof.
  revert data s. induction fuel as [|fuel IH]; intros data s;
    destruct (readline 1024 data) as [buf fd] eqn:Hr;
    pose proof (readline_1024_line _ _ _ Hr) as Hline;
    pose proof (readline_1024_spec _ _ _ Hr) as (Happ & _ & _);
    (destruct buf as [|b buf];
     [cbn; intros [= <-]; exists [];
      destruct Hline as [[? _]|[_ ->]]; [done|];
      rewrite app_nil_r; split_and!; [done | done | done | cbn; lia]|]).
  - done.
  - cbn [send_frame_loop]. intros Hloop.
    specialize (IH fd (send s (b :: buf))).
    destruct (readline 1024 fd) as [buf' fd'] eqn:Hr'.
    destruct (IH Hloop) as (chunks & Hc & Hcalls & Hall & Hfull).
    destruct Hline as [Hline|[? _]]; [|done].
    exists ((b :: buf) :: chunks). split_and!.
    + cbn [concat]. by rewrite Hc.
    + rewrite Hcalls, send_calls, fmap_cons, <- app_assoc. done.
    + by constructor.
    + intros [|i] c Hi Hlook; cbn in Hi, Hlook.
      * injection Hlook as <-. apply (readline_1024_full _ _ _ Hr).
        destruct chunks as [|c0 chunks]; [cbn in Hi; lia|].
        apply Forall_cons in Hall as [(Hc0 & _) _].
        rewrite <- Hc. cbn. by destruct c0.
      * apply (Hfull i); [lia | done].
Qed.

Lemma concat_length_bounds (chunks : list bytes) :
  Forall line_chunk chunks →
  (length chunks ≤ length (concat chunks) ≤ 1024 * length chunks)%nat.
Proof.
  induction 1 as [|c chunks (Hne & Hlen & _) _ IH]; cbn; [lia|].
  rewrite length_app. assert (length c ≠ 0%nat) by (by destruct c). lia.
Qed.

(** X7. Every buffer [send_frame] sends is a line of the file as
    [readline(1024)] cuts it: not empty, at most 1024 bytes, with no
    line feed before its last byte; and every buffer but the last ends
    with a line feed or is 1024 bytes long.  So the number of [send]
    calls lies between a 1024th of the length of the file and that
    length, and an empty file is sent with no call at all. *)
Theorem send_frame_lines (fuel : nat) (s s' : Sock) (frame_loc : str)
    (sleep : Z) (fs : filesystem) :
  send_frame fuel s frame_loc sleep fs = Done s' →
  ∃ (body : bytes) (chunks : list bytes),
    fs !! frame_loc = Some body ∧
    concat chunks = body ∧
    calls s' = calls s ++ (CallSend <$> chunks) ∧
    Forall line_chunk chunks ∧
    (∀ i c, (S i < length chunks)%nat → chunks !! i = Some c → full_chunk c) ∧
    (length chunks ≤ length body ≤ 1024 * length chunks)%nat ∧
    (body = [] → calls s' = calls s).
Proof.
  destruct (fs !! frame_loc) as [body|] eqn:Hf.
  - rewrite (send_frame_open _ _ _ _ _ _ Hf).
    intros (chunks & Hc & Hcalls & Hall & Hfull)%send_frame_loop_lines.
    pose proof (concat_length_bounds _ Hall) as Hb. rewrite Hc in Hb.
    exists body, chunks. split_and!; try done; try lia.
    intros ->. destruct chunks; [by rewrite Hcalls, app_nil_r | cbn in Hb; lia].
  - unfold send_frame. by rewrite Hf.
Qed.


End sender_lines.

(** ** Control messages *)

Lemma encode_ascii_app (s t : str) (a b : bytes) :
  encode_ascii s = Some a → encode_ascii t = Some b →
  encode_ascii (s ++ t) = Some (a ++ b).
Proof.
  revert a. induction s as [|c s IH]; intros a; cbn.
  - by intros [= <-].
  - destruct (c <? 128)%N; [|done].
    destruct (Byte.of_N c); [|done].
    destruct (encode_ascii s) as [a'|]; [|done].
    intros [= <-] Ht. by rewrite (IH a' eq_refl Ht).
Qed.

Lemma encode_ascii_app_inv (s : str) (a b : bytes) :
  encode_ascii s = Some (a ++ b) →
  ∃ s1 s2, s = s1 ++ s2 ∧ encode_ascii s1 = Some a ∧ encode_ascii s2 = Some b.
Proof.
  revert s. induction a as [|x a IH]; intros s Hs.
  - by exists [], s.
  - destruct s as [|c s]; [done|]. cbn in Hs.
    destruct (c <? 128)%N eqn:Hc; [|done].
    destruct (Byte.of_N c) eqn:Hb; [|done].
    destruct (encode_ascii s) as [r|] eqn:Hr; [|done].
    injection Hs as -> ->.
    destruct (IH s Hr) as (s1 & s2 & -> & H1 & H2).
    exists (c :: s1), s2. cbn. by rewrite Hc, Hb, H1.
Qed.

Lemma remove_newlines_id (s : str) : no_newline s → remove_newlines s = s.
Proof.
  unfold remove_newlines. induction 1 as [|c s Hc _ IH]; [done|].
  rewrite filter_cons_True by done. by rewrite IH.
Qed.

Lemma no_newline_string_of_uint (d : uint) :
  no_newline (lit (NilEmpty.string_of_uint d)).
Proof. induction d; cbn; by constructor. Qed.

Lemma no_newline_str_of_int (n : Z) : no_newline (str_of_int n).
Proof.
  unfold str_of_int.
  destruct (Z.to_int n) as [d|d]; cbn.
  - destruct d; try apply (no_newline_string_of_uint (_ _)).
    by repeat constructor.
  - constructor; [done|].
    destruct d; try apply (no_newline_string_of_uint (_ _)).
    by repeat constructor.
Qed.

Lemma no_newline_ack_text (frame : Z) : no_newline (ack_text frame).
Proof.
  apply Forall_app_2; [|apply no_newline_str_of_int].
  unfold lit. cbn. by repeat constructor.
Qed.

Section control.
Context `{Socket Sock}.


(** X10. Nothing separates two announcements.  After
    [send_total_frame_nbr] and [send_increment_nbr] the socket has been
    given the digits of the two numbers, one buffer after the other; a
    receiver that is given the two buffers by one read gets the two
    texts glued together, and nothing is left for a second read of
    that data. *)
Theorem control_numbers_coalesce (s s1 s2 : Sock) (total increment : Z) :
  send_total_frame_nbr s total = Done s1 →
  send_increment_nbr s1 increment = Done s2 →
  ∃ buf1 buf2 : bytes,
    calls s2 = calls s ++ [CallSend buf1; CallSend buf2] ∧
    decode_utf8 buf1 = Some (str_of_int total) ∧
    decode_utf8 buf2 = Some (str_of_int increment) ∧
    ∀ (W : Type) (HW : Socket W) (w w' : W),
      recv w 1024 = Some (buf1 ++ buf2, w') →
      receive_bytes_to_string w
        = Done (str_of_int total ++ str_of_int increment, w').
Proof.
  unfold send_total_frame_nbr, send_increment_nbr.
  destruct (encode_ascii (str_of_int total)) as [buf1|] eqn:H1; [|done].
  destruct (encode_ascii (str_of_int increment)) as [buf2|] eqn:H2; [|done].
  cbn. intros [= <-] [= <-]. exists buf1, buf2. split_and!.
  - rewrite !send_calls, <- app_assoc. done.
  - by apply decode_encode_ascii.
  - by apply decode_encode_ascii.
  - intros W HW w w' Hrecv.
    unfold receive_bytes_to_string, sock_recv. rewrite Hrecv. cbn.
    rewrite (decode_encode_ascii _ _ (encode_ascii_app _ _ _ _ H1 H2)). cbn.
    rewrite remove_newlines_id; [done|].
    apply Forall_app_2; apply no_newline_str_of_int.
Qed.

End control.

Example coalesced_announcements :
  str_of_int 1 ++ str_of_int 23 = str_of_int 12 ++ str_of_int 3.
Proof. reflexivity. Qed.

(** ** Only the ASCII bytes decode to ASCII text *)

Lemma lor_ge_128 (a b : N) : (128 ≤ a ∨ 128 ≤ b → 128 ≤ N.lor a b)%N.
Proof.
  intros Hab.
  assert (0 < N.lor a b)%N as Hpos.
  { destruct (N.eq_dec (N.lor a b) 0%N) as [H0|]; [|lia].
    apply N.lor_eq_0_iff in H0. lia. }
  change 128%N with (2 ^ 7)%N.
  apply N.log2_le_pow2; [done|].
  rewrite N.log2_lor.
  destruct Hab as [Ha|Hb].
  - change 128%N with (2 ^ 7)%N in Ha. apply N.log2_le_pow2 in Ha; lia.
  - change 128%N with (2 ^ 7)%N in Hb. apply N.log2_le_pow2 in Hb; lia.
Qed.

Lemma lead2_high (b0 : byte) :
  in_range 194 223 (Byte.to_N b0) = true →
  (128 ≤ N.shiftl (N.land (Byte.to_N b0) 31) 6)%N.
Proof. destruct b0; vm_compute; done. Qed.

Lemma lead3_high (b0 : byte) :
  in_range 224 239 (Byte.to_N b0) = true →
  (Byte.to_N b0 =? 224)%N = true ∨
  (128 ≤ N.shiftl (N.land (Byte.to_N b0) 15) 12)%N.
Proof. destruct b0; vm_compute; (by left) || (by right) || done. Qed.

Lemma second3_high (b1 : byte) :
  in_range 160 191 (Byte.to_N b1) = true →
  (128 ≤ N.shiftl (cont_bits (Byte.to_N b1)) 6)%N.
Proof. destruct b1; vm_compute; done. Qed.

Lemma lead4_high (b0 : byte) :
  in_range 240 244 (Byte.to_N b0) = true →
  (Byte.to_N b0 =? 240)%N = true ∨
  (128 ≤ N.shiftl (N.land (Byte.to_N b0) 7) 18)%N.
Proof. destruct b0; vm_compute; (by left) || (by right) || done. Qed.

Lemma second4_high (b1 : byte) :
  in_range 144 191 (Byte.to_N b1) = true →
  (128 ≤ N.shiftl (cont_bits (Byte.to_N b1)) 12)%N.
Proof. destruct b1; vm_compute; done. Qed.

(** The first code point of a decoded text is below 128 only when it is
    the first byte itself. *)
Lemma decode_utf8_head (b0 : byte) (r0 : bytes) (s : str) :
  decode_utf8 (b0 :: r0) = Some s →
  ∃ c s', s = c :: s' ∧
    ((c < 128)%N → c = Byte.to_N b0 ∧ decode_utf8 r0 = Some s').
Proof.
  cbn [decode_utf8]. cbv zeta.
  destruct (N.ltb_spec (Byte.to_N b0) 128) as [Hlow|Hhigh].
  { destruct (decode_utf8 r0) as [s'|]; [|done]. cbn.
    intros [= <-]. by exists (Byte.to_N b0), s'. }
  destruct (in_range 194 223 (Byte.to_N b0)) eqn:H2.
  { destruct r0 as [|b1 r1]; [done|].
    destruct (is_cont (Byte.to_N b1)); [|done].
    destruct (decode_utf8 r1) as [s'|]; [|done]. cbn.
    intros [= <-]. eexists _, s'. split; [done|]. intros Hc.
    pose proof (lor_ge_128 _ (cont_bits (Byte.to_N b1))
                  (or_introl (lead2_high b0 H2))). lia. }
  destruct (in_range 224 239 (Byte.to_N b0)) eqn:H3.
  { destruct r0 as [|b1 [|b2 r2]]; [done | done |].
    destruct (in_range _ _ (Byte.to_N b1) && is_cont (Byte.to_N b2))
      eqn:Hr; [|done].
    apply andb_prop in Hr as [Hr1 _].
    destruct (decode_utf8 r2) as [s'|]; [|done]. cbn.
    intros [= <-]. eexists _, s'. split; [done|]. intros Hc.
    exfalso. revert Hc. apply N.le_ngt, lor_ge_128.
    destruct (lead3_high b0 H3) as [He0|?]; [right | by left].
    rewrite He0 in Hr1.
    assert (in_range 160 191 (Byte.to_N b1) = true) as Hr1'.
    { unfold in_range in *. apply andb_prop in Hr1 as [? Hhi].
      apply andb_true_intro. split; [done|].
      destruct (Byte.to_N b0 =? 237)%N; [|done].
      apply N.leb_le in Hhi. apply N.leb_le. lia. }
    apply lor_ge_128. left. by apply second3_high. }
  destruct (in_range 240 244 (Byte.to_N b0)) eqn:H4; [|done].
  destruct r0 as [|b1 [|b2 [|b3 r3]]]; [done | done | done |].
  destruct (in_range _ _ (Byte.to_N b1) && is_cont (Byte.to_N b2)
            && is_cont (Byte.to_N b3)) eqn:Hr; [|done].
  apply andb_prop in Hr as [Hr _]. apply andb_prop in Hr as [Hr1 _].
  destruct (decode_utf8 r3) as [s'|]; [|done]. cbn.
  intros [= <-]. eexists _, s'. split; [done|]. intros Hc.
  exfalso. revert Hc. apply N.le_ngt, lor_ge_128.
  destruct (lead4_high b0 H4) as [Hf0|?]; [right | by left].
  rewrite Hf0 in Hr1.
  assert (in_range 144 191 (Byte.to_N b1) = true) as Hr1'.
  { unfold in_range in *. apply andb_prop in Hr1 as [? Hhi].
    apply andb_true_intro. split; [done|].
    destruct (Byte.to_N b0 =? 244)%N; [|done].
    apply N.leb_le in Hhi. apply N.leb_le. lia. }
  apply lor_ge_128. left. by apply second4_high.
Qed.

Lemma decode_utf8_ascii_inv (d : bytes) (s : str) :
  decode_utf8 d = Some s → is_ascii s → encode_ascii s = Some d.
Proof.
  revert d. induction s as [|c s IH]; intros d Hd Hs.
  - destruct d as [|b0 r0]; [done|].
    by apply decode_utf8_head in Hd as (c & s' & ? & _).
  - destruct d as [|b0 r0]; [done|].
    apply decode_utf8_head in Hd as (c' & s' & [= <- <-] & Hhead).
    apply Forall_cons in Hs as [Hc Hs].
    destruct (Hhead Hc) as [-> Hr0]. cbn.
    destruct (N.ltb_spec (Byte.to_N b0) 128) as [_|]; [|lia].
    by rewrite Byte.of_to_N, (IH r0 Hr0 Hs).
Qed.

(** ** What counts as an acknowledgment *)

Section ack_exact.
Context `{Socket Sock}.

Lemma waiting_for_ack_first (w w' : Sock) (d : bytes) (frame : Z)
    (fuel : nat) :
  recv w 1024 = Some (d, w') →
  waiting_for_ack fuel w frame =
    match decode_utf8 d with
    | Some msg => waiting_for_ack_loop fuel w' msg frame
    | None => Raised UnicodeDecodeError
    end.
Proof.
  intros Hrecv. unfold waiting_for_ack, recv_msg, sock_recv.
  rewrite Hrecv. cbn. by destruct (decode_utf8 d).
Qed.

Lemma waiting_for_ack_loop_drop (w : Sock) (msg : str) (frame : Z)
    (fuel : nat) :
  msg ≠ ack_text frame →
  waiting_for_ack_loop (S fuel) w msg frame = waiting_for_ack fuel w frame ∧
  waiting_for_ack_loop 0 w msg frame = OutOfFuel.
Proof.
  intros Hne. cbn. by rewrite bool_decide_eq_true_2.
Qed.

Lemma waiting_for_ack_loop_accept (w : Sock) (frame : Z) (fuel : nat) :
  waiting_for_ack_loop fuel w (ack_text frame) frame = Done w.
Proof.
  destruct fuel; cbn; by rewrite bool_decide_eq_false_2 by (by intros []).
Qed.

(** X11. The first read decides as follows.  If it yields exactly the ASCII
    bytes of [OK FRAME <frame>], the call returns.  If it yields other
    bytes that are valid UTF-8, they are dropped and the call goes on
    as a wait on the rest.  If it yields bytes that are not valid
    UTF-8, the call raises [UnicodeDecodeError]. *)
Theorem waiting_for_ack_exact_bytes (w w' : Sock) (d : bytes) (frame : Z) :
  recv w 1024 = Some (d, w') →
  (encode_ascii (ack_text frame) = Some d →
   ∀ fuel, waiting_for_ack fuel w frame = Done w') ∧
  (encode_ascii (ack_text frame) ≠ Some d →
   (∀ out, waiting_for_ack 0 w frame ≠ Done out) ∧
   ∀ fuel,
     waiting_for_ack (S fuel) w frame =
       match decode_utf8 d with
       | Some _ => waiting_for_ack fuel w' frame
       | None => Raised UnicodeDecodeError
       end).
Proof.
  intros Hrecv. split.
  - intros Henc fuel. rewrite (waiting_for_ack_first _ _ _ _ _ Hrecv).
    rewrite (decode_encode_ascii _ _ Henc).
    apply waiting_for_ack_loop_accept.
  - intros Hne.
    assert (∀ msg, decode_utf8 d = Some msg → msg ≠ ack_text frame) as Hmsg.
    { intros msg Hd ->. apply Hne.
      apply decode_utf8_ascii_inv; [done | apply is_ascii_ack_text]. }
    split.
    + intros out. rewrite (waiting_for_ack_first _ _ _ _ _ Hrecv).
      destruct (decode_utf8 d) as [msg|]; [|done].
      by rewrite (proj2 (waiting_for_ack_loop_drop w' msg frame 0
                           (Hmsg msg eq_refl))).
    + intros fuel. rewrite (waiting_for_ack_first _ _ _ _ _ Hrecv).
      destruct (decode_utf8 d) as [msg|]; [|done].
      by apply waiting_for_ack_loop_drop, Hmsg.
Qed.

(** X12. A line feed after the acknowledgment: [receive_bytes_to_string]
    removes it and returns the text [OK FRAME <frame>], but
    [waiting_for_ack], which compares the text as it is read, drops the
    message and keeps waiting. *)
Theorem waiting_for_ack_keeps_newline (w w' : Sock) (buf : bytes)
    (frame : Z) :
  encode_ascii (ack_text frame) = Some buf →
  recv w 1024 = Some (buf ++ [x0a], w') →
  receive_bytes_to_string w = Done (ack_text frame, w') ∧
  waiting_for_ack 0 w frame = OutOfFuel ∧
  ∀ fuel, waiting_for_ack (S fuel) w frame = waiting_for_ack fuel w' frame.
Proof.
  intros Henc Hrecv.
  assert (decode_utf8 (buf ++ [x0a]) = Some (ack_text frame ++ [newline]))
    as Hdec.
  { apply decode_encode_ascii. by apply encode_ascii_app. }
  assert (ack_text frame ++ [newline] ≠ ack_text frame) as Hne.
  { intros Heq. apply (f_equal length) in Heq.
    rewrite length_app in Heq. cbn in Heq. lia. }
  split_and!.
  - unfold receive_bytes_to_string, sock_recv. rewrite Hrecv. cbn.
    rewrite Hdec. cbn. unfold remove_newlines.
    rewrite filter_app.
    fold (remove_newlines (ack_text frame)).
    rewrite remove_newlines_id by apply no_newline_ack_text.
    rewrite filter_cons_False by (by intros []).
    by rewrite filter_nil, app_nil_r.
  - rewrite (waiting_for_ack_first _ _ _ _ _ Hrecv), Hdec.
    exact (proj2 (waiting_for_ack_loop_drop w' _ frame 0 Hne)).
  - intros fuel. rewrite (waiting_for_ack_first _ _ _ _ _ Hrecv), Hdec.
    exact (proj1 (waiting_for_ack_loop_drop w' _ frame fuel Hne)).
Qed.

(** X13. An acknowledgment that arrives in two reads is not recognised:
    both parts are dropped and the call keeps waiting. *)
Theorem waiting_for_ack_split (w w1 w2 : Sock) (part1 part2 : bytes)
    (frame : Z) :
  encode_ascii (ack_text frame) = Some (part1 ++ part2) →
  part1 ≠ [] → part2 ≠ [] →
  recv w 1024 = Some (part1, w1) →
  recv w1 1024 = Some (part2, w2) →
  (∀ out, waiting_for_ack 1 w frame ≠ Done out) ∧
  ∀ fuel,
    waiting_for_ack (S (S fuel)) w frame = waiting_for_ack fuel w2 frame.
Proof.
  intros Henc Hp1 Hp2 Hr1 Hr2.
  destruct (encode_ascii_app_inv _ _ _ Henc) as (s1 & s2 & Hs & He1 & He2).
  pose proof (encode_ascii_length _ _ He1) as Hl1.
  pose proof (encode_ascii_length _ _ He2) as Hl2.
  assert (length part1 ≠ 0%nat) by (by destruct part1).
  assert (length part2 ≠ 0%nat) by (by destruct part2).
  assert (s1 ≠ ack_text frame) as Hn1.
  { rewrite Hs. intros Heq. apply (f_equal length) in Heq.
    rewrite length_app in Heq. lia. }
  assert (s2 ≠ ack_text frame) as Hn2.
  { rewrite Hs. intros Heq. apply (f_equal length) in Heq.
    rewrite length_app in Heq. lia. }
  split.
  - intros out. rewrite (waiting_for_ack_first _ _ _ _ _ Hr1).
    rewrite (decode_encode_ascii _ _ He1).
    rewrite (proj1 (waiting_for_ack_loop_drop w1 s1 frame 0 Hn1)).
    rewrite (waiting_for_ack_first _ _ _ _ _ Hr2).
    rewrite (decode_encode_ascii _ _ He2).
    by rewrite (proj2 (waiting_for_ack_loop_drop w2 s2 frame 0 Hn2)).
  - intros fuel. rewrite (waiting_for_ack_first _ _ _ _ _ Hr1).
    rewrite (decode_encode_ascii _ _ He1).
    rewrite (proj1 (waiting_for_ack_loop_drop w1 s1 frame (S fuel) Hn1)).
    rewrite (waiting_for_ack_first _ _ _ _ _ Hr2).
    rewrite (decode_encode_ascii _ _ He2).
    by rewrite (proj1 (waiting_for_ack_loop_drop w2 s2 frame fuel Hn2)).
Qed.

End ack_exact.

(** ** Creating sockets *)



(** ** Locating the folders *)




(** ** The further properties at sample values *)






Lemma send_frame_lines_witness :
  ∃ (body : bytes) (chunks : list bytes),
    Sample.fs !! Sample.frame_loc = Some body ∧
    concat chunks = body ∧
    calls (Wire [] false [CallSend [x41; x0a]; CallSend [x42; x43]])
      = calls Sample.idle ++ (CallSend <$> chunks) ∧
    Forall line_chunk chunks ∧
    (∀ i c, (S i < length chunks)%nat → chunks !! i = Some c → full_chunk c) ∧
    (length chunks ≤ length body ≤ 1024 * length chunks)%nat ∧
    (body = [] →
     calls (Wire [] false [CallSend [x41; x0a]; CallSend [x42; x43]])
       = calls Sample.idle).
Proof.
  apply (send_frame_lines 2 Sample.idle
           (Wire [] false [CallSend [x41; x0a]; CallSend [x42; x43]])
           Sample.frame_loc 1 Sample.fs).
  vm_compute. reflexivity.
Defined.



Lemma control_numbers_coalesce_witness :
  ∃ buf1 buf2 : bytes,
    calls (Wire [] false [CallSend [x31]; CallSend [x32; x33]])
      = calls Sample.idle ++ [CallSend buf1; CallSend buf2] ∧
    decode_utf8 buf1 = Some (str_of_int 1) ∧
    decode_utf8 buf2 = Some (str_of_int 23) ∧
    ∀ (W : Type) (HW : Socket W) (w w' : W),
      recv w 1024 = Some (buf1 ++ buf2, w') →
      receive_bytes_to_string w = Done (str_of_int 1 ++ str_of_int 23, w').
Proof.
  apply (control_numbers_coalesce Sample.idle
           (Wire [] false [CallSend [x31]])
           (Wire [] false [CallSend [x31]; CallSend [x32; x33]]) 1 23).
  - vm_compute. reflexivity.
  - vm_compute. reflexivity.
Defined.

Lemma waiting_for_ack_exact_bytes_witness :
  (∀ fuel, waiting_for_ack fuel Sample.acked 7
           = Done (Wire [] false [CallRecv 1024])) ∧
  (∀ out, waiting_for_ack 0 Sample.acked 8 ≠ Done out).
Proof.
  split.
  - refine (proj1 (@waiting_for_ack_exact_bytes wire wire_socket Sample.acked
                     (Wire [] false [CallRecv 1024]) Sample.ack7 7 _) _).
    + vm_compute. reflexivity.
    + vm_compute. reflexivity.
  - refine (proj1 (proj2 (@waiting_for_ack_exact_bytes wire wire_socket
                            Sample.acked (Wire [] false [CallRecv 1024])
                            Sample.ack7 8 _) _)).
    + vm_compute. reflexivity.
    + vm_compute. discriminate.
Defined.

Lemma waiting_for_ack_keeps_newline_witness :
  receive_bytes_to_string (Wire [Sample.ack7 ++ [x0a]] false [])
    = Done (ack_text 7, Wire [] false [CallRecv 1024]) ∧
  waiting_for_ack 0 (Wire [Sample.ack7 ++ [x0a]] false []) 7 = OutOfFuel ∧
  ∀ fuel,
    waiting_for_ack (S fuel) (Wire [Sample.ack7 ++ [x0a]] false []) 7
    = waiting_for_ack fuel (Wire [] false [CallRecv 1024]) 7.
Proof.
  apply (waiting_for_ack_keeps_newline (Wire [Sample.ack7 ++ [x0a]] false [])
           (Wire [] false [CallRecv 1024]) Sample.ack7 7).
  - vm_compute. reflexivity.
  - vm_compute. reflexivity.
Defined.

Lemma waiting_for_ack_split_witness :
  (∀ out,
     waiting_for_ack 1
       (Wire [[x4f; x4b; x20]; [x46; x52; x41; x4d; x45; x20; x37]] false [])
       7 ≠ Done out) ∧
  ∀ fuel,
    waiting_for_ack (S (S fuel))
      (Wire [[x4f; x4b; x20]; [x46; x52; x41; x4d; x45; x20; x37]] false [])
      7
    = waiting_for_ack fuel
        (Wire [] false [CallRecv 1024; CallRecv 1024]) 7.
Proof.
  apply (waiting_for_ack_split
           (Wire [[x4f; x4b; x20]; [x46; x52; x41; x4d; x45; x20; x37]]
              false [])
           (Wire [[x46; x52; x41; x4d; x45; x20; x37]] false [CallRecv 1024])
           (Wire [] false [CallRecv 1024; CallRecv 1024])
           [x4f; x4b; x20] [x46; x52; x41; x4d; x45; x20; x37] 7).
  - vm_compute. reflexivity.
  - discriminate.
  - discriminate.
  - vm_compute. reflexivity.
  - vm_compute. reflexivity.
Defined.





Example init_eopsock_environ_folder_sample :
  init_eopsock_environ_folder (Some (lit "main_client.py"))
    {[ lit "EOP_SOCKET_MAIN_FOLDER" := lit "/opt/eop" ]} None
  = inr (CaptureLoc (lit "/opt/eop/client/capture/")).
Proof. vm_compute. reflexivity. Qed.
